(** * Black-Scholes pricing, implied volatility and the implied distribution

    A shallow embedding of [black_scholes.py] and [implied_vol.py].

    Numbers are real numbers: the embedding describes the arithmetic the
    program writes down, not the rounding, overflow or not-a-number
    arithmetic of binary64.  An operation without a real value is recorded
    as [Undef].  [scipy.stats.norm] and [scipy.optimize.bisect] are library
    code; the first is the standard normal law, the second is modelled after
    its documented behaviour. *)

From Stdlib Require Import Reals Lra ZArith Lia String Ascii List Bool.
Import ListNotations.
Local Open Scope string_scope.
Local Open Scope R_scope.

(** * Outcomes of a call

    A Python call returns a value or raises.  Arithmetic is carried out over
    the reals; an operation applied outside its real domain (division by
    zero, logarithm of a non-positive number, square root of a negative
    number) has no real value, which is recorded as [Undef]. *)

Inductive pyexn : Type :=
| PyException (msg : string)
| ValueError (msg : string)
| RuntimeError (msg : string).

Inductive res (A : Type) : Type :=
| Ok (a : A)
| Raise (e : pyexn)
| Undef.

Arguments Ok {A} a.
Arguments Raise {A} e.
Arguments Undef {A}.

Definition bind {A B : Type} (m : res A) (k : A -> res B) : res B :=
  match m with
  | Ok a => k a
  | Raise e => Raise e
  | Undef => Undef
  end.

Notation "x <- m ;; k" := (bind m (fun x => k))
  (at level 61, m at next level, right associativity).

Definition rdiv (x y : R) : res R :=
  if Req_dec_T y 0 then Undef else Ok (x / y).

Definition np_log (x : R) : res R :=
  if Rlt_dec 0 x then Ok (ln x) else Undef.

Definition np_sqrt (x : R) : res R :=
  if Rle_dec 0 x then Ok (sqrt x) else Undef.

Fixpoint mapM {A B : Type} (f : A -> res B) (l : list A) : res (list B) :=
  match l with
  | [] => Ok []
  | x :: xs => y <- f x ;; ys <- mapM f xs ;; Ok (y :: ys)
  end.

Fixpoint zipWith {A B C : Type} (f : A -> B -> C) (l : list A) (m : list B) : list C :=
  match l, m with
  | x :: xs, y :: ys => f x y :: zipWith f xs ys
  | _, _ => []
  end.

Fixpoint zipWithM {A B C : Type} (f : A -> B -> res C) (l : list A) (m : list B)
  : res (list C) :=
  match l, m with
  | x :: xs, y :: ys => z <- f x y ;; zs <- zipWithM f xs ys ;; Ok (z :: zs)
  | _, _ => Ok []
  end.

(** * Payoff strings *)

(** [str.upper] on ASCII strings, which payoff names are: the letters a..z
    move to A..Z and every other character stays. *)
Definition upper_ascii (c : ascii) : ascii :=
  let n := nat_of_ascii c in
  if (97 <=? n)%nat && (n <=? 122)%nat then ascii_of_nat (n - 32) else c.

Fixpoint upper (s : string) : string :=
  match s with
  | EmptyString => EmptyString
  | String c s' => String (upper_ascii c) (upper s')
  end.

(** [pt in [...]] *)
Definition str_in (s : string) (l : list string) : bool :=
  existsb (String.eqb s) l.


(** * The Gaussian integral

    The density exp(-t^2/2), its integral from 0, and the total mass. *)

Definition gauss (t : R) : R := exp (- (t * t) / 2).

Lemma gauss_pos t : 0 < gauss t.
Proof. apply exp_pos. Qed.

Lemma derivable_pt_lim_gauss x : derivable_pt_lim gauss x (- x * gauss x).
Proof.
  unfold gauss.
  assert (H : derivable_pt_lim (fun t => - (t * t) / 2) x (- x)).
  { replace (- x) with (- (1 * x + x * 1) * / 2) by field.
    apply (derivable_pt_lim_scal_right (fun t => - (t * t)) x).
    apply (derivable_pt_lim_opp (fun t => t * t)).
    apply (derivable_pt_lim_mult id id); apply derivable_pt_lim_id. }
  replace (- x * exp (- (x * x) / 2)) with (exp (- (x * x) / 2) * - x) by ring.
  apply (derivable_pt_lim_comp (fun t => - (t * t) / 2) exp);
    [exact H | apply derivable_pt_lim_exp].
Qed.

Lemma continuity_gauss x : continuity_pt gauss x.
Proof.
  apply derivable_continuous_pt. exists (- x * gauss x). apply derivable_pt_lim_gauss.
Qed.

Lemma gauss_integrable a b : Riemann_integrable gauss a b.
Proof.
  destruct (Rle_dec a b) as [H|H].
  - apply continuity_implies_RiemannInt; [exact H | intros; apply continuity_gauss].
  - apply RiemannInt_P1, continuity_implies_RiemannInt; [lra | intros; apply continuity_gauss].
Qed.

Definition gauss_int (x : R) : R := RiemannInt (gauss_integrable 0 x).

Lemma gauss_int_chasles a b :
  gauss_int b - gauss_int a = RiemannInt (gauss_integrable a b).
Proof.
  unfold gauss_int.
  rewrite <- (RiemannInt_P26 (gauss_integrable 0 a) (gauss_integrable a b) (gauss_integrable 0 b)).
  ring.
Qed.

Lemma derivable_pt_lim_gauss_int x : derivable_pt_lim gauss_int x (gauss x).
Proof.
  assert (h : x - 1 <= x + 1) by lra.
  assert (C0 : forall y, x - 1 <= y <= x + 1 -> continuity_pt gauss y)
    by (intros; apply continuity_gauss).
  assert (D := RiemannInt_P27 (f:=gauss) (x:=x) h C0 ltac:(lra)).
  apply (derivable_pt_lim_locally_ext
           (fun y => gauss_int (x - 1) + primitive h (FTC_P1 h C0) y) gauss_int x (x - 1) (x + 1)).
  - lra.
  - intros z Hz. unfold primitive.
    destruct (Rle_dec (x - 1) z) as [H1|H1]; [|lra].
    destruct (Rle_dec z (x + 1)) as [H2|H2]; [|lra].
    rewrite (RiemannInt_P5 _ (gauss_integrable (x - 1) z)).
    rewrite <- gauss_int_chasles. ring.
  - replace (gauss x) with (0 + gauss x) by ring.
    apply (derivable_pt_lim_plus (fct_cte (gauss_int (x - 1))));
      [apply derivable_pt_lim_const | exact D].
Qed.
Lemma deriv_pos_lt (f f' : R -> R) a b :
  a < b -> (forall c, a <= c <= b -> derivable_pt_lim f c (f' c)) ->
  (forall c, a < c < b -> 0 < f' c) -> f a < f b.
Proof.
  intros Hab Hd Hp.
  destruct (MVT_cor2 f f' a b Hab Hd) as [c [Hc Hin]].
  specialize (Hp c Hin).
  assert (0 < f' c * (b - a)) by (apply Rmult_lt_0_compat; lra). lra.
Qed.

Lemma deriv_nonneg_le (f f' : R -> R) a b :
  a <= b -> (forall c, a <= c <= b -> derivable_pt_lim f c (f' c)) ->
  (forall c, a < c < b -> 0 <= f' c) -> f a <= f b.
Proof.
  intros [Hab| ->] Hd Hp; [|lra].
  destruct (MVT_cor2 f f' a b Hab Hd) as [c [Hc Hin]].
  specialize (Hp c Hin).
  assert (0 <= f' c * (b - a)) by (apply Rmult_le_pos; lra). lra.
Qed.

Lemma gauss_int_0 : gauss_int 0 = 0.
Proof. apply RiemannInt_P9. Qed.

Lemma gauss_int_lt a b : a < b -> gauss_int a < gauss_int b.
Proof.
  intros H. apply (deriv_pos_lt gauss_int gauss); auto.
  - intros; apply derivable_pt_lim_gauss_int.
  - intros; apply gauss_pos.
Qed.

Lemma gauss_int_le a b : a <= b -> gauss_int a <= gauss_int b.
Proof. intros [H| ->]; [left; now apply gauss_int_lt | lra]. Qed.




(* Tail domination: exp(-t^2/2) <= exp(1/2 - t). *)
Lemma gauss_le_exp t : gauss t <= exp (/ 2 - t).
Proof.
  unfold gauss. destruct (Rle_dec (- (t * t) / 2) (/ 2 - t)) as [H|H].
  - destruct H as [H|H]; [left; now apply exp_increasing | rewrite H; lra].
  - exfalso. apply H. assert (0 <= (t - 1) * (t - 1)) by apply Rle_0_sqr || nra. nra.
Qed.

Definition gauss_bound : R := exp (/ 2).

Lemma gauss_int_bounded x : gauss_int x < gauss_bound.
Proof.
  assert (Hb : 0 < gauss_bound) by apply exp_pos.
  destruct (Rle_dec x 0) as [Hx|Hx].
  { assert (gauss_int x <= gauss_int 0) by now apply gauss_int_le. rewrite gauss_int_0 in *; lra. }
  pose (D := fun y => - exp (/ 2 - y) - gauss_int y).
  assert (HD : D 0 <= D x).
  { apply (deriv_nonneg_le D (fun y => exp (/ 2 - y) - gauss y)); [lra | |].
    - intros c _. unfold D.
      apply (derivable_pt_lim_minus (fun y => - exp (/ 2 - y)) gauss_int);
        [|apply derivable_pt_lim_gauss_int].
      replace (exp (/ 2 - c)) with (- (exp (/ 2 - c) * (0 - 1))) by ring.
      apply (derivable_pt_lim_opp (fun y => exp (/ 2 - y))).
      apply (derivable_pt_lim_comp (fun y => / 2 - y) exp); [|apply derivable_pt_lim_exp].
      apply (derivable_pt_lim_minus (fct_cte (/ 2)) id);
        [apply derivable_pt_lim_const | apply derivable_pt_lim_id].
    - intros c _. pose proof (gauss_le_exp c). cbv beta. lra. }
  unfold D in HD. rewrite gauss_int_0 in HD. replace (/ 2 - 0) with (/ 2) in HD by ring.
  pose proof (exp_pos (/ 2 - x)). unfold gauss_bound. lra.
Qed.

Definition gauss_seq (n : nat) : R := gauss_int (INR n).

Lemma gauss_seq_growing : Un_growing gauss_seq.
Proof.
  intros n. apply gauss_int_le. rewrite S_INR. lra.
Qed.

Lemma gauss_seq_has_ub : has_ub gauss_seq.
Proof.
  exists gauss_bound. intros y [n ->]. left. apply gauss_int_bounded.
Qed.

(* Half of the total mass of exp(-t^2/2): the limit of the integrals over [0, n]. *)
Definition gauss_half : R := proj1_sig (growing_cv gauss_seq gauss_seq_growing gauss_seq_has_ub).

Lemma gauss_half_cv : Un_cv gauss_seq gauss_half.
Proof. unfold gauss_half. destruct (growing_cv _ _ _); assumption. Qed.

Lemma gauss_seq_le_half n : gauss_seq n <= gauss_half.
Proof.
  apply growing_ineq; [apply gauss_seq_growing | apply gauss_half_cv].
Qed.

Lemma gauss_int_lt_half x : gauss_int x < gauss_half.
Proof.
  destruct (archimed (x + 1)) as [H _].
  assert (Hup : (0 <= up (x + 1))%Z \/ (up (x + 1) < 0)%Z)
    by (destruct (Z.le_gt_cases 0 (up (x + 1))); auto).
  destruct Hup as [Hup|Hup].
  - apply Rlt_le_trans with (gauss_seq (Z.to_nat (up (x + 1)))); [|apply gauss_seq_le_half].
    apply gauss_int_lt. rewrite INR_IZR_INZ, Z2Nat.id by assumption. lra.
  - apply IZR_lt in Hup. apply Rlt_le_trans with (gauss_seq 0); [|apply gauss_seq_le_half].
    apply gauss_int_lt. simpl. lra.
Qed.

Lemma gauss_half_pos : 0 < gauss_half.
Proof. rewrite <- gauss_int_0. apply gauss_int_lt_half. Qed.

(* The tail mass beyond y gets arbitrarily small. *)
Lemma gauss_tail_small eps :
  0 < eps -> exists N, forall y, INR N <= y -> gauss_half - gauss_int y < eps.
Proof.
  intros He. destruct (gauss_half_cv eps He) as [N HN].
  exists N. intros y Hy. specialize (HN N (Nat.le_refl _)).
  unfold Rdist in HN. pose proof (gauss_seq_le_half N).
  assert (gauss_seq N <= gauss_int y) by now apply gauss_int_le.
  rewrite Rabs_left1 in HN; lra.
Qed.

(* Mass of exp(-t^2/2) to the left of x. *)
Definition gauss_mass (x : R) : R := gauss_half + gauss_int x.



Lemma gauss_mass_lt_total x : gauss_mass x < 2 * gauss_half.
Proof. unfold gauss_mass. pose proof (gauss_int_lt_half x). lra. Qed.

Lemma derivable_pt_lim_gauss_mass x : derivable_pt_lim gauss_mass x (gauss x).
Proof.
  unfold gauss_mass. replace (gauss x) with (0 + gauss x) by ring.
  apply (derivable_pt_lim_plus (fct_cte gauss_half) gauss_int);
    [apply derivable_pt_lim_const | apply derivable_pt_lim_gauss_int].
Qed.










(** * The standard normal distribution

    [scipy.stats.norm] is an external collaborator.  Its distribution
    function is the mass of the density to the left of the argument divided
    by the total mass; the total mass is taken as the limit it is, so its
    closed form is not needed. *)

Definition norm_cdf (x : R) : R := gauss_mass x / (2 * gauss_half).

Definition norm_pdf (x : R) : R := exp (- x ^ 2 / 2) / sqrt (2 * PI).

Module black_scholes.

Definition FWD : string := "FWD".
Definition CALL : string := "CALL".
Definition PUT : string := "PUT".
Definition STRADDLE : string := "STRADDLE".

Definition unrecognized (pt : string) : pyexn :=
  PyException (String.append "Unrecognized payoff type: " pt).

(** [option_price_interval] on scalar [fwd] and [strike]: both
    [isinstance] tests are false, so the upper bound is the scalar itself. *)
Definition option_price_interval (fwd pv strike : R) (pt : string) : res (R * R) :=
  let pt := upper pt in
  if negb (str_in pt [CALL; PUT]) then Raise (unrecognized pt) else
  let pv_fwd := pv * fwd in
  let pv_strike := pv * strike in
  if String.eqb pt CALL then
    let lb := Rmax (pv_fwd - pv_strike) 0.0 in
    let ub := pv_fwd in
    Ok (lb, ub)
  else
    let lb := Rmax (pv_strike - pv_fwd) 0.0 in
    let ub := pv_strike in
    Ok (lb, ub).

Definition option_intrinsic_value (spot strike : R) (pt : string) : res R :=
  let pt := upper pt in
  if negb (str_in pt [CALL; PUT]) then Raise (unrecognized pt) else
  if String.eqb pt CALL then Ok (Rmax (spot - strike) 0.0)
  else Ok (Rmax (strike - spot) 0.0).

Definition min_val : R := 0.0000000001.

Definition option_price (fwd vol pv strike texp : R) (pt : string) : res R :=
  let vol := Rmax vol min_val in
  let texp := Rmax texp min_val in
  let pt := upper pt in
  if negb (str_in pt [FWD; CALL; PUT; STRADDLE]) then Raise (unrecognized pt) else
  if String.eqb pt FWD then Ok (pv * (fwd - strike)) else
  st <- np_sqrt texp ;;
  let sqrtvar := vol * st in
  q <- rdiv fwd strike ;;
  lg <- np_log q ;;
  d1 <- rdiv (lg + 0.5 * sqrtvar ^ 2) sqrtvar ;;
  let d2 := d1 - sqrtvar in
  let nd1 := norm_cdf d1 in
  let nd2 := norm_cdf d2 in
  let c := pv * (fwd * nd1 - strike * nd2) in
  if String.eqb pt CALL then Ok c
  else
    let p := c - pv * (fwd - strike) in
    if String.eqb pt PUT then Ok (c - pv * (fwd - strike))
    else Ok (c + p).

(** ** The root finder used by [option_vol]

    [scipy.optimize.bisect] with its default tolerances and iteration cap:
    both end points are evaluated, a zero there is returned at once, equal
    signs are refused with a [ValueError], and the interval is then halved
    until the step is below the tolerance. *)

Definition xtol : R := 2e-12.
Definition rtol : R := 8.881784197001252e-16.
Definition maxiter : nat := 100.

Fixpoint bisect_loop (f : R -> res R) (iter : nat) (xa fa dm : R) : res R :=
  match iter with
  | O => Raise (RuntimeError "Failed to converge after 100 iterations.")
  | S iter' =>
      let dm := dm * 0.5 in
      let xm := xa + dm in
      fm <- f xm ;;
      let xa := if Rle_dec 0 (fm * fa) then xm else xa in
      if Req_dec_T fm 0 then Ok xm
      else if Rlt_dec (Rabs dm) (xtol + rtol * Rabs xm) then Ok xm
      else bisect_loop f iter' xa fa dm
  end.

Definition bisect (f : R -> res R) (a b : R) : res R :=
  fa <- f a ;;
  fb <- f b ;;
  if Req_dec_T fa 0 then Ok a
  else if Req_dec_T fb 0 then Ok b
  else if Rlt_dec 0 (fa * fb)
       then Raise (ValueError "f(a) and f(b) must have different signs")
  else bisect_loop f maxiter a fa (b - a).

(** What [option_vol] hands back: a volatility, or [np.nan]. *)
Inductive pyfloat : Type :=
| Num (v : R)
| NaN.

Definition option_vol (price fwd pv strike texp : R) (pt : string)
  (min_vol max_vol : R) : pyfloat :=
  let bsvol := fun vol => option_price fwd vol pv strike texp pt in
  let target := fun v t => y <- bsvol v ;; Ok (y - t) in
  match bisect (fun v => target v price) min_vol max_vol with
  | Ok vol => Num vol              (* try *)
  | Raise _ | Undef => NaN         (* except: *)
  end.


(** The dictionary returned by [option_risk]: its four labelled entries. *)
Record risk : Type := mk_risk {
  Price : R;
  Delta : R;
  Gamma : R;
  Vega : R
}.

Definition option_risk (spot vol rate strike texp : R) (pt : string) : res risk :=
  let vol := Rmax vol min_val in
  let texp := Rmax texp min_val in
  let pt := upper pt in
  if negb (str_in pt [CALL; PUT]) then Raise (unrecognized pt) else
  let pv := exp (- rate * texp) in
  fwd <- rdiv spot pv ;;
  st <- np_sqrt texp ;;
  let sqrtvar := vol * st in
  q <- rdiv fwd strike ;;
  lg <- np_log q ;;
  d1 <- rdiv (lg + 0.5 * sqrtvar ^ 2) sqrtvar ;;
  let d2 := d1 - sqrtvar in
  let Nd1 := norm_cdf d1 in
  let Nd2 := norm_cdf d2 in
  let c := pv * (fwd * Nd1 - strike * Nd2) in
  let '(price, delta) :=
    if String.eqb pt CALL then (c, Nd1)
    else (c - pv * (fwd - strike), Nd1 - 1.0) in
  let nd1 := norm_pdf d1 in
  gamma <- rdiv nd1 (spot * sqrtvar) ;;
  st' <- np_sqrt texp ;;
  let vega := spot * nd1 * st' in
  Ok {| Price := price; Delta := delta; Gamma := gamma; Vega := vega |}.

End black_scholes.

Module implied_vol.

Module bs := black_scholes.

Definition build_tanh_prop_moneyness (w PV : R) : R -> R -> res R :=
  fun K KRef =>
    fwd_ref <- rdiv KRef PV ;;
    pm <- rdiv (K - fwd_ref) fwd_ref ;;
    x <- rdiv pm w ;;
    let m := w * tanh x in
    Ok m.

Definition build_quad_prop_moneyness (PV : R) : R -> R -> res R :=
  fun K KRef =>
    fwd_ref <- rdiv KRef PV ;;
    pm <- rdiv (K - fwd_ref) fwd_ref ;;
    let m := pm in
    Ok m.

(** The interface [implied_distribution] relies on: any object with
    [get_strike_ref] and [implied_vol]. *)
Class IVCalc (C : Type) : Type := {
  get_strike_ref : C -> R;
  implied_vol : C -> R -> R -> res R
}.

Record IV_Quad_F : Type := mk_IV_Quad_F {
  KRef : R;
  a : R;
  b : R;
  c : R;
  f : R -> R -> res R
}.

Definition IV_Quad_F_get_strike_ref (self : IV_Quad_F) : R := KRef self.

Definition IV_Quad_F_implied_vol (self : IV_Quad_F) (K T : R) : res R :=
  m <- f self K (KRef self) ;;
  let y := a self + b self * m + 0.5 * c self * m ^ 2 in
  Ok y.

#[export] Instance IV_Quad_F_IVCalc : IVCalc IV_Quad_F := {|
  get_strike_ref := IV_Quad_F_get_strike_ref;
  implied_vol := IV_Quad_F_implied_vol
|}.

Section Distribution.
Context {C : Type} `{IVCalc C}.

(** The strikes are an array; a method called on an array acts on each
    entry, and an entry without a real value makes the array [Undef]. *)
Definition implied_distribution (strikes : list R) (T spot PV : R) (calc : C)
  : res (list R * list R * list R * list R) :=
  let epsilon := 0.0001 * get_strike_ref calc in
  fwd <- rdiv spot PV ;;
  let strikes_up := map (fun K => K * (1.0 + epsilon)) strikes in
  vols_up <- mapM (fun K => implied_vol calc K T) strikes_up ;;
  v_up <- zipWithM (fun vol K => bs.option_price fwd vol 1.0 K T bs.PUT) vols_up strikes_up ;;
  vols <- mapM (fun K => implied_vol calc K T) strikes ;;
  v <- zipWithM (fun vol K => bs.option_price fwd vol 1.0 K T bs.PUT) vols strikes ;;
  let strikes_dn := map (fun K => K * (1.0 - epsilon)) strikes in
  vols_dn <- mapM (fun K => implied_vol calc K T) strikes_dn ;;
  v_dn <- zipWithM (fun vol K => bs.option_price fwd vol 1.0 K T bs.PUT) vols_dn strikes_dn ;;
  dist <- zipWithM rdiv (zipWith Rminus v_up v_dn) (zipWith Rminus strikes_up strikes_dn) ;;
  dens <- zipWithM rdiv
            (zipWith Rplus (zipWith Rminus v_up (map (Rmult 2.0) v)) v_dn)
            (zipWith Rmult (zipWith Rminus strikes_up strikes)
                           (zipWith Rminus strikes strikes_dn)) ;;
  Ok (vols, v, dist, dens).
End Distribution.

End implied_vol.

(** * The distribution extractor as the specification words it

    One strike at a time: bump the strike up and down by the relative step,
    price the three strikes as puts with unit discount factor, and take the
    central differences. *)

Module distribution_spec.
Import implied_vol.

Section Spec.
Context {C : Type} `{IVCalc C}.
Variables (T : R) (calc : C).

Definition eps : R := 1e-4 * get_strike_ref calc.

Definition price (fwd K : R) : res R :=
  vol <- implied_vol calc K T ;;
  black_scholes.option_price fwd vol 1 K T black_scholes.PUT.

Definition row (fwd K : R) : res (R * R * R * R) :=
  let K_up := K * (1 + eps) in
  let K_dn := K * (1 - eps) in
  vol <- implied_vol calc K T ;;
  p_up <- price fwd K_up ;;
  p <- price fwd K ;;
  p_dn <- price fwd K_dn ;;
  dist <- rdiv (p_up - p_dn) (K_up - K_dn) ;;
  dens <- rdiv (p_up - 2 * p + p_dn) ((K_up - K) * (K - K_dn)) ;;
  Ok (vol, p, dist, dens).

Definition cons4 (r : R * R * R * R) (acc : list R * list R * list R * list R)
  : list R * list R * list R * list R :=
  let '(vol, p, dist, dens) := r in
  let '(vols, ps, dists, denss) := acc in
  (vol :: vols, p :: ps, dist :: dists, dens :: denss).

Definition columns (rows : list (R * R * R * R)) : list R * list R * list R * list R :=
  fold_right cons4 ([], [], [], []) rows.

Definition implied_distribution_spec (strikes : list R) (spot PV : R)
  : res (list R * list R * list R * list R) :=
  fwd <- rdiv spot PV ;;
  rows <- mapM (row fwd) strikes ;;
  Ok (columns rows).
End Spec.

End distribution_spec.

(** * [option_price_interval] on arrays

    [fwd] and [strike] may each be a number or a sequence (list, tuple or
    one-dimensional array); [pv] is a number.  Arithmetic between two arrays
    follows the broadcasting rule for one dimension: equal lengths, or one of
    the two of length one. *)

Module black_scholes_nd.
Import black_scholes.

Inductive nd : Type :=
| Scalar (x : R)
| Array (xs : list R).

(** [isinstance(x, (list, tuple, np.ndarray))] *)
Definition is_list (x : nd) : bool :=
  match x with
  | Scalar _ => false
  | Array _ => true
  end.

Definition nd_map (f : R -> R) (x : nd) : nd :=
  match x with
  | Scalar a => Scalar (f a)
  | Array xs => Array (map f xs)
  end.

(** An elementwise operation; the message of the error leaves out the two
    shapes that follow it. *)
Definition nd_binop (f : R -> R -> R) (x y : nd) : res nd :=
  match x, y with
  | Scalar a, Scalar b => Ok (Scalar (f a b))
  | Scalar a, Array ys => Ok (Array (map (f a) ys))
  | Array xs, Scalar b => Ok (Array (map (fun x => f x b) xs))
  | Array xs, Array ys =>
      if (length xs =? length ys)%nat then Ok (Array (zipWith f xs ys))
      else if (length xs =? 1)%nat then Ok (Array (map (f (hd 0 xs)) ys))
      else if (length ys =? 1)%nat then Ok (Array (map (fun x => f x (hd 0 ys)) xs))
      else Raise (ValueError "operands could not be broadcast together")
  end.

(** [np.full(x.shape, v)] for a number [v] *)
Definition np_full_like (x : nd) (v : nd) : nd :=
  match x, v with
  | Array xs, Scalar a => Array (repeat a (length xs))
  | _, _ => v
  end.

Definition option_price_interval (fwd : nd) (pv : R) (strike : nd) (pt : string)
  : res (nd * nd) :=
  let pt := upper pt in
  if negb (str_in pt [CALL; PUT]) then Raise (unrecognized pt) else
  let fwd_is_list := is_list fwd in
  let strike_is_list := is_list strike in
  let pv_fwd := nd_map (Rmult pv) fwd in
  let pv_strike := nd_map (Rmult pv) strike in
  if String.eqb pt CALL then
    d <- nd_binop Rminus pv_fwd pv_strike ;;
    let lb := nd_map (fun x => Rmax x 0.0) d in
    let ub := if negb fwd_is_list && strike_is_list
              then np_full_like strike pv_fwd else pv_fwd in
    Ok (lb, ub)
  else
    d <- nd_binop Rminus pv_strike pv_fwd ;;
    let lb := nd_map (fun x => Rmax x 0.0) d in
    let ub := if negb strike_is_list && fwd_is_list
              then np_full_like fwd pv_strike else pv_strike in
    Ok (lb, ub).

End black_scholes_nd.

(** * Facts about the normal distribution function *)


Lemma norm_cdf_lt_1 x : norm_cdf x < 1.
Proof.
  unfold norm_cdf. pose proof gauss_half_pos. pose proof (gauss_mass_lt_total x).
  apply Rmult_lt_reg_r with (2 * gauss_half); [lra|].
  unfold Rdiv. rewrite Rmult_assoc, Rinv_l; lra.
Qed.



Lemma norm_cdf_0 : norm_cdf 0 = / 2.
Proof.
  unfold norm_cdf, gauss_mass. rewrite gauss_int_0. pose proof gauss_half_pos. field. lra.
Qed.

(** The distribution function tends to 1 at infinity. *)
Lemma norm_cdf_limit eps :
  0 < eps -> exists N, forall x, INR N <= x -> 1 - eps < norm_cdf x < 1.
Proof.
  intros He. pose proof gauss_half_pos as Hh.
  destruct (gauss_tail_small (eps * (2 * gauss_half))) as [N HN].
  { apply Rmult_lt_0_compat; lra. }
  exists N. intros x Hx. split; [|apply norm_cdf_lt_1].
  specialize (HN x Hx). unfold norm_cdf, gauss_mass.
  apply Rmult_lt_reg_r with (2 * gauss_half); [lra|].
  unfold Rdiv. rewrite Rmult_assoc, Rinv_l by lra. lra.
Qed.

Lemma derivable_pt_lim_norm_cdf x :
  derivable_pt_lim norm_cdf x (gauss x / (2 * gauss_half)).
Proof.
  unfold norm_cdf, Rdiv.
  apply (derivable_pt_lim_scal_right gauss_mass), derivable_pt_lim_gauss_mass.
Qed.

Lemma dec_half : 0.5 = / 2.
Proof. lra. Qed.

Lemma dec_0 : 0.0 = 0.
Proof. lra. Qed.

Lemma dec_1 : 1.0 = 1.
Proof. lra. Qed.

Lemma dec_2 : 2.0 = 2.
Proof. lra. Qed.

(** Half the gap between two squares: the exponent of a density ratio. *)
Definition sq_gap (u v : R) : R := (v * v - u * u) / 2.



(** * The Black-Scholes formula as a function of the total deviation *)

Definition bs_d1 (fwd strike s : R) : R := (ln (fwd / strike) + 0.5 * s ^ 2) / s.

Definition bs_d2 (fwd strike s : R) : R := bs_d1 fwd strike s - s.

Definition bs_call (fwd s pv strike : R) : R :=
  pv * (fwd * norm_cdf (bs_d1 fwd strike s) - strike * norm_cdf (bs_d2 fwd strike s)).

Definition bs_put (fwd s pv strike : R) : R :=
  bs_call fwd s pv strike - pv * (fwd - strike).

Section BlackScholes.
Variables fwd strike : R.
Hypothesis fwd_pos : 0 < fwd.
Hypothesis strike_pos : 0 < strike.

Lemma bs_log_moneyness s :
  0 < s -> ln (fwd / strike) = sq_gap (bs_d2 fwd strike s) (bs_d1 fwd strike s).
Proof.
  intros Hs. unfold sq_gap, bs_d2, bs_d1. rewrite dec_half.
  generalize (ln (fwd / strike)). intros L. field. lra.
Qed.

Lemma bs_ratio s :
  0 < s -> fwd = strike * exp (sq_gap (bs_d2 fwd strike s) (bs_d1 fwd strike s)).
Proof.
  intros Hs. rewrite <- bs_log_moneyness by assumption.
  rewrite exp_ln by (apply Rdiv_lt_0_compat; assumption). field. lra.
Qed.

(** Forward times density at d1 equals strike times density at d2. *)
Lemma bs_gauss_balance s :
  0 < s -> fwd * gauss (bs_d1 fwd strike s) = strike * gauss (bs_d2 fwd strike s).
Proof.
  intros Hs. rewrite (bs_ratio s Hs) at 1. unfold gauss, sq_gap.
  rewrite Rmult_assoc, <- exp_plus. do 2 f_equal. field.
Qed.






End BlackScholes.

(** * Sensitivity of the price to the total deviation *)

Section Vega.
Variables fwd strike : R.
Hypothesis fwd_pos : 0 < fwd.
Hypothesis strike_pos : 0 < strike.








End Vega.

(** * Running the checked operations *)

Lemma rdiv_Ok x y : y <> 0 -> rdiv x y = Ok (x / y).
Proof. intros H. unfold rdiv. destruct (Req_dec_T y 0); [contradiction | reflexivity]. Qed.

Lemma rdiv_zero x : rdiv x 0 = Undef.
Proof. unfold rdiv. destruct (Req_dec_T 0 0); [reflexivity | contradiction]. Qed.

Lemma np_log_Ok x : 0 < x -> np_log x = Ok (ln x).
Proof. intros H. unfold np_log. destruct (Rlt_dec 0 x); [reflexivity | contradiction]. Qed.

Lemma np_sqrt_Ok x : 0 <= x -> np_sqrt x = Ok (sqrt x).
Proof. intros H. unfold np_sqrt. destruct (Rle_dec 0 x); [reflexivity | contradiction]. Qed.

Lemma str_in_spec s l : str_in s l = true <-> In s l.
Proof.
  unfold str_in. rewrite existsb_exists. split.
  - intros [x [Hin Heq]]. apply String.eqb_eq in Heq. now subst.
  - intros Hin. exists s. split; [assumption | apply String.eqb_refl].
Qed.

Example upper_call : upper "call" = "CALL".
Proof. reflexivity. Qed.

Example upper_mixed : upper "Straddle" = "STRADDLE".
Proof. reflexivity. Qed.

Example upper_keeps_other_characters : upper "put-1" = "PUT-1".
Proof. reflexivity. Qed.

Module bs_facts.
Import black_scholes.

Lemma min_val_pos : 0 < min_val.
Proof. unfold min_val. lra. Qed.

Lemma clamp_pos x : 0 < Rmax x min_val.
Proof. pose proof min_val_pos. pose proof (Rmax_r x min_val). lra. Qed.

Lemma clamp_idem x : Rmax (Rmax x min_val) min_val = Rmax x min_val.
Proof. apply Rmax_left, Rmax_r. Qed.

(** The total deviation the pricer works with after clamping. *)
Definition sqrtvar (vol texp : R) : R := Rmax vol min_val * sqrt (Rmax texp min_val).

Lemma sqrtvar_pos vol texp : 0 < sqrtvar vol texp.
Proof.
  unfold sqrtvar. apply Rmult_lt_0_compat; [apply clamp_pos | apply sqrt_lt_R0, clamp_pos].
Qed.


Section Pricing.
Variables fwd vol pv strike texp : R.
Variable pt : string.
Hypothesis fwd_pos : 0 < fwd.
Hypothesis strike_pos : 0 < strike.

Lemma sqrtvar_nonzero : Rmax vol min_val * sqrt (Rmax texp min_val) <> 0.
Proof. apply Rgt_not_eq, Rlt_gt, (sqrtvar_pos vol texp). Qed.

Lemma strike_nonzero : strike <> 0.
Proof. lra. Qed.

(** The four checked operations of the pricer succeed. *)
Ltac run_pricer :=
  rewrite np_sqrt_Ok by (left; apply clamp_pos); cbn [bind];
  rewrite (rdiv_Ok fwd strike strike_nonzero); cbn [bind];
  rewrite np_log_Ok by (apply Rdiv_lt_0_compat; assumption); cbn [bind];
  rewrite rdiv_Ok by apply sqrtvar_nonzero; cbn [bind];
  reflexivity.

Lemma option_price_CALL :
  upper pt = CALL ->
  option_price fwd vol pv strike texp pt = Ok (bs_call fwd (sqrtvar vol texp) pv strike).
Proof.
  intros Hpt. unfold option_price. rewrite Hpt.
  change (negb (str_in CALL [FWD; CALL; PUT; STRADDLE])) with false.
  change (String.eqb CALL FWD) with false.
  change (String.eqb CALL CALL) with true.
  cbv iota.
  run_pricer.
Qed.

Lemma option_price_PUT :
  upper pt = PUT ->
  option_price fwd vol pv strike texp pt = Ok (bs_put fwd (sqrtvar vol texp) pv strike).
Proof.
  intros Hpt. unfold option_price. rewrite Hpt.
  change (negb (str_in PUT [FWD; CALL; PUT; STRADDLE])) with false.
  change (String.eqb PUT FWD) with false.
  change (String.eqb PUT CALL) with false.
  change (String.eqb PUT PUT) with true.
  cbv iota.
  run_pricer.
Qed.

Lemma option_price_STRADDLE :
  upper pt = STRADDLE ->
  option_price fwd vol pv strike texp pt
  = Ok (bs_call fwd (sqrtvar vol texp) pv strike + bs_put fwd (sqrtvar vol texp) pv strike).
Proof.
  intros Hpt. unfold option_price. rewrite Hpt.
  change (negb (str_in STRADDLE [FWD; CALL; PUT; STRADDLE])) with false.
  change (String.eqb STRADDLE FWD) with false.
  change (String.eqb STRADDLE CALL) with false.
  change (String.eqb STRADDLE PUT) with false.
  cbv iota.
  run_pricer.
Qed.
End Pricing.

Lemma option_price_FWD fwd vol pv strike texp pt :
  upper pt = FWD -> option_price fwd vol pv strike texp pt = Ok (pv * (fwd - strike)).
Proof.
  intros Hpt. unfold option_price. rewrite Hpt. reflexivity.
Qed.

Lemma option_price_invalid fwd vol pv strike texp pt :
  str_in (upper pt) [FWD; CALL; PUT; STRADDLE] = false ->
  option_price fwd vol pv strike texp pt = Raise (unrecognized (upper pt)).
Proof.
  intros Hpt. unfold option_price. rewrite Hpt. reflexivity.
Qed.

(** The forward payoff is spelled FWD: that string is priced, FORWARD is
    refused. *)
Example forward_payoff_spelling :
  option_price 100 0.2 1 90 1 "fwd" = Ok (1 * (100 - 90)) /\
  option_price 100 0.2 1 90 1 "FORWARD" = Raise (unrecognized "FORWARD").
Proof.
  split; [now apply option_price_FWD | now apply option_price_invalid].
Qed.

Lemma accepted_pricing pt :
  str_in (upper pt) [FWD; CALL; PUT; STRADDLE] = true ->
  upper pt = FWD \/ upper pt = CALL \/ upper pt = PUT \/ upper pt = STRADDLE.
Proof.
  rewrite str_in_spec. simpl. intuition.
Qed.

Lemma accepted_vanilla pt :
  str_in (upper pt) [CALL; PUT] = true -> upper pt = CALL \/ upper pt = PUT.
Proof.
  rewrite str_in_spec. simpl. intuition.
Qed.

Lemma option_price_interval_CALL fwd pv strike pt :
  upper pt = CALL ->
  option_price_interval fwd pv strike pt = Ok (Rmax (pv * fwd - pv * strike) 0, pv * fwd).
Proof.
  intros Hpt. unfold option_price_interval. rewrite Hpt, dec_0. reflexivity.
Qed.

Lemma option_price_interval_PUT fwd pv strike pt :
  upper pt = PUT ->
  option_price_interval fwd pv strike pt = Ok (Rmax (pv * strike - pv * fwd) 0, pv * strike).
Proof.
  intros Hpt. unfold option_price_interval. rewrite Hpt, dec_0. reflexivity.
Qed.


End bs_facts.

(** * Hyperbolic tangent *)

Lemma tanh_0 : tanh 0 = 0.
Proof. unfold tanh. rewrite sinh_0, cosh_0. lra. Qed.


Module iv_facts.
Import implied_vol.

Section Moneyness.
Variables KRef PV : R.
Hypothesis KRef_pos : 0 < KRef.
Hypothesis PV_pos : 0 < PV.

Lemma fwd_ref_pos : 0 < KRef / PV.
Proof. now apply Rdiv_lt_0_compat. Qed.

Lemma quad_moneyness_run K :
  build_quad_prop_moneyness PV K KRef = Ok ((K - KRef / PV) / (KRef / PV)).
Proof.
  pose proof fwd_ref_pos. unfold build_quad_prop_moneyness.
  rewrite (rdiv_Ok KRef PV) by lra. cbn [bind].
  rewrite rdiv_Ok by lra. reflexivity.
Qed.

Lemma tanh_moneyness_run w K :
  0 < w ->
  build_tanh_prop_moneyness w PV K KRef = Ok (w * tanh ((K - KRef / PV) / (KRef / PV) / w)).
Proof.
  intros Hw. pose proof fwd_ref_pos. unfold build_tanh_prop_moneyness.
  rewrite (rdiv_Ok KRef PV) by lra. cbn [bind].
  rewrite (rdiv_Ok (K - KRef / PV)) by lra. cbn [bind].
  rewrite rdiv_Ok by lra. reflexivity.
Qed.
Lemma quad_moneyness_at_forward :
  build_quad_prop_moneyness PV (KRef / PV) KRef = Ok 0.
Proof.
  pose proof fwd_ref_pos. rewrite quad_moneyness_run. f_equal. field. lra.
Qed.

Lemma tanh_moneyness_at_forward w :
  0 < w -> build_tanh_prop_moneyness w PV (KRef / PV) KRef = Ok 0.
Proof.
  intros Hw. pose proof fwd_ref_pos. rewrite tanh_moneyness_run by assumption. f_equal.
  replace ((KRef / PV - KRef / PV) / (KRef / PV) / w) with 0 by (field; lra).
  rewrite tanh_0. ring.
Qed.
End Moneyness.

(** Where the transform vanishes the smile returns its level [a]. *)
Lemma smile_at_zero_moneyness (self : IV_Quad_F) (K T : R) :
  f self K (KRef self) = Ok 0 -> implied_vol self K T = Ok (a self).
Proof.
  intros Hm. cbn [implied_vol IV_Quad_F_IVCalc]. unfold IV_Quad_F_implied_vol.
  rewrite Hm. cbn [bind]. f_equal. rewrite dec_half. ring.
Qed.

End iv_facts.

Module risk_facts.
Import black_scholes bs_facts.

Definition risk_pv (rate texp : R) : R := exp (- rate * Rmax texp min_val).

Definition risk_fwd (spot rate texp : R) : R := spot / risk_pv rate texp.

Lemma risk_pv_pos rate texp : 0 < risk_pv rate texp.
Proof. apply exp_pos. Qed.

(** The forward derived inside [option_risk] is positive exactly when the
    spot is. *)
Lemma risk_fwd_pos_iff spot rate texp : 0 < risk_fwd spot rate texp <-> 0 < spot.
Proof.
  unfold risk_fwd. pose proof (risk_pv_pos rate texp) as Hp. split; intros H.
  - apply Rmult_lt_reg_r with (/ risk_pv rate texp); [now apply Rinv_0_lt_compat|].
    rewrite Rmult_0_l. exact H.
  - now apply Rdiv_lt_0_compat.
Qed.

Section Risk.
Variables spot vol rate strike texp : R.
Variable pt : string.
Hypothesis spot_pos : 0 < spot.
Hypothesis strike_pos : 0 < strike.

Definition risk_d1 : R :=
  bs_d1 (risk_fwd spot rate texp) strike (sqrtvar vol texp).

Definition risk_call : risk :=
  {| Price := bs_call (risk_fwd spot rate texp) (sqrtvar vol texp) (risk_pv rate texp) strike;
     Delta := norm_cdf risk_d1;
     Gamma := norm_pdf risk_d1 / (spot * sqrtvar vol texp);
     Vega := spot * norm_pdf risk_d1 * sqrt (Rmax texp min_val) |}.

Definition risk_put : risk :=
  {| Price := bs_put (risk_fwd spot rate texp) (sqrtvar vol texp) (risk_pv rate texp) strike;
     Delta := norm_cdf risk_d1 - 1.0;
     Gamma := norm_pdf risk_d1 / (spot * sqrtvar vol texp);
     Vega := spot * norm_pdf risk_d1 * sqrt (Rmax texp min_val) |}.

Lemma option_risk_run :
  upper pt = CALL \/ upper pt = PUT ->
  option_risk spot vol rate strike texp pt
  = Ok (if String.eqb (upper pt) CALL then risk_call else risk_put).
Proof.
  intros Hpt.
  assert (Hpv : exp (- rate * Rmax texp min_val) <> 0)
    by (apply Rgt_not_eq, Rlt_gt, exp_pos).
  assert (Hfwd : 0 < spot / exp (- rate * Rmax texp min_val))
    by (apply (risk_fwd_pos_iff spot rate texp); assumption).
  assert (Hsv : spot * (Rmax vol min_val * sqrt (Rmax texp min_val)) <> 0).
  { apply Rgt_not_eq, Rlt_gt, Rmult_lt_0_compat; [assumption | apply (sqrtvar_pos vol texp)]. }
  unfold option_risk.
  replace (negb (str_in (upper pt) [CALL; PUT])) with false
    by (destruct Hpt as [-> | ->]; reflexivity).
  rewrite (rdiv_Ok spot _ Hpv). cbn [bind].
  rewrite np_sqrt_Ok by (left; apply clamp_pos). cbn [bind].
  rewrite (rdiv_Ok _ strike) by lra. cbn [bind].
  rewrite np_log_Ok by (apply Rdiv_lt_0_compat; assumption). cbn [bind].
  rewrite (rdiv_Ok _ _ (sqrtvar_nonzero vol texp)). cbn [bind].
  destruct Hpt as [-> | ->].
  - change (String.eqb CALL CALL) with true. cbv iota.
    rewrite (rdiv_Ok _ _ Hsv). cbn [bind]. reflexivity.
  - change (String.eqb PUT CALL) with false. cbv iota.
    rewrite (rdiv_Ok _ _ Hsv). cbn [bind]. reflexivity.
Qed.
End Risk.


End risk_facts.

Module vol_facts.
Import black_scholes bs_facts.



Lemma bisect_root_left (f : R -> res R) a b fb :
  f a = Ok 0 -> f b = Ok fb -> bisect f a b = Ok a.
Proof.
  intros Ha Hb. unfold bisect. rewrite Ha, Hb. cbn [bind].
  destruct (Req_dec_T 0 0); [reflexivity | contradiction].
Qed.

End vol_facts.

Module dist_facts.
Import implied_vol.
Module spec := distribution_spec.

(** Two computations agree on every value they return. *)
Definition ok_equiv {A : Type} (m1 m2 : res A) : Prop :=
  forall out, m1 = Ok out <-> m2 = Ok out.

Lemma ok_equiv_refl {A : Type} (m : res A) : ok_equiv m m.
Proof. intros out. reflexivity. Qed.

Lemma ok_equiv_fail {A : Type} (m1 m2 : res A) :
  (forall out, m1 <> Ok out) -> (forall out, m2 <> Ok out) -> ok_equiv m1 m2.
Proof. intros H1 H2 out. split; intros E; [destruct (H1 out E) | destruct (H2 out E)]. Qed.

Lemma dec_eps : 0.0001 = 1e-4.
Proof. lra. Qed.

Section Body.
Context {C : Type} `{IVCalc C}.
Variables (T : R) (calc : C) (fwd : R).

(** The part of [implied_distribution] after the forward is known. *)
Definition body (strikes : list R) : res (list R * list R * list R * list R) :=
  let epsilon := 0.0001 * get_strike_ref calc in
  let strikes_up := map (fun K => K * (1.0 + epsilon)) strikes in
  vols_up <- mapM (fun K => implied_vol calc K T) strikes_up ;;
  v_up <- zipWithM (fun vol K => bs.option_price fwd vol 1.0 K T bs.PUT) vols_up strikes_up ;;
  vols <- mapM (fun K => implied_vol calc K T) strikes ;;
  v <- zipWithM (fun vol K => bs.option_price fwd vol 1.0 K T bs.PUT) vols strikes ;;
  let strikes_dn := map (fun K => K * (1.0 - epsilon)) strikes in
  vols_dn <- mapM (fun K => implied_vol calc K T) strikes_dn ;;
  v_dn <- zipWithM (fun vol K => bs.option_price fwd vol 1.0 K T bs.PUT) vols_dn strikes_dn ;;
  dist <- zipWithM rdiv (zipWith Rminus v_up v_dn) (zipWith Rminus strikes_up strikes_dn) ;;
  dens <- zipWithM rdiv
            (zipWith Rplus (zipWith Rminus v_up (map (Rmult 2.0) v)) v_dn)
            (zipWith Rmult (zipWith Rminus strikes_up strikes)
                           (zipWith Rminus strikes strikes_dn)) ;;
  Ok (vols, v, dist, dens).

Ltac finish :=
  first [ apply ok_equiv_refl
        | apply ok_equiv_fail; intros; discriminate ].

Ltac step :=
  match goal with
  | Heq : ?m = _ |- context [bind ?m _] => rewrite Heq; cbn [bind]
  | |- context [bind ?m _] =>
      lazymatch m with
      | bind _ _ => fail
      | Ok _ => fail
      | Raise _ => fail
      | Undef => fail
      | _ => destruct m eqn:?; cbn [bind]
      end
  end.

Lemma body_cons K Ks :
  ok_equiv (body (K :: Ks))
           (r <- spec.row T calc fwd K ;; rest <- body Ks ;; Ok (spec.cons4 r rest)).
Proof.
  unfold body, spec.row, spec.price, spec.eps.
  rewrite <- dec_eps, <- dec_1, <- dec_2.
  cbv zeta. cbn [map mapM zipWithM zipWith bind].
  repeat (try finish; step; cbn [map mapM zipWithM zipWith bind spec.cons4]).
  all: try finish.
Qed.

Lemma body_equiv strikes :
  ok_equiv (body strikes)
           (rows <- mapM (spec.row T calc fwd) strikes ;; Ok (spec.columns rows)).
Proof.
  induction strikes as [|K Ks IH].
  - apply ok_equiv_refl.
  - intros out. rewrite (body_cons K Ks out). cbn [mapM bind].
    destruct (spec.row T calc fwd K) as [r| |]; cbn [bind];
      [|split; discriminate|split; discriminate].
    destruct (body Ks) as [rest| |] eqn:Hb;
      destruct (mapM (spec.row T calc fwd) Ks) as [rows| |] eqn:Hm; cbn [bind] in *;
      try (split; discriminate);
      try (exfalso; destruct (IH rest) as [IH1 _]; specialize (IH1 eq_refl); discriminate);
      try (exfalso; destruct (IH (spec.columns rows)) as [_ IH2]; specialize (IH2 eq_refl);
           discriminate).
    destruct (IH rest) as [IH1 _]. specialize (IH1 eq_refl). inversion IH1; subst rest.
    reflexivity.
Qed.
End Body.

Lemma implied_distribution_unfold {C : Type} `{IVCalc C} strikes T spot PV (calc : C) :
  implied_distribution strikes T spot PV calc
  = (fwd <- rdiv spot PV ;; body T calc fwd strikes).
Proof. reflexivity. Qed.

Lemma mapM_defined {A B : Type} (f : A -> res B) (l : list A) :
  (forall x, In x l -> exists y, f x = Ok y) -> exists ys, mapM f l = Ok ys.
Proof.
  induction l as [|x xs IH]; intros Hall.
  - exists []. reflexivity.
  - destruct (Hall x (or_introl eq_refl)) as [y Hy].
    destruct IH as [ys Hys]; [intros z Hz; apply Hall; now right|].
    exists (y :: ys). cbn [mapM]. rewrite Hy. cbn [bind]. rewrite Hys. reflexivity.
Qed.

(** With a quadratic-moneyness smile, positive market data and a reference
    strike below 10000 (so that the relative step stays below 1), every
    strike yields a row, hence the extractor returns its four arrays. *)
Section Defined.
Variables (KRef a b c PVm T : R).
Hypothesis KRef_pos : 0 < KRef.
Hypothesis KRef_small : KRef < 10000.
Hypothesis PVm_pos : 0 < PVm.

Definition quad_smile : IV_Quad_F :=
mk_IV_Quad_F KRef a b c (build_quad_prop_moneyness PVm).

Lemma quad_smile_defined K : exists vol, implied_vol quad_smile K T = Ok vol.
Proof.
cbn [implied_vol IV_Quad_F_IVCalc]. unfold IV_Quad_F_implied_vol, quad_smile.
cbn [implied_vol.f implied_vol.KRef implied_vol.a implied_vol.b implied_vol.c].
rewrite iv_facts.quad_moneyness_run by assumption. cbn [bind]. eexists. reflexivity.
Qed.

Lemma spec_price_defined fwd K :
0 < fwd -> 0 < K -> exists p, spec.price T quad_smile fwd K = Ok p.
Proof.
intros Hf HK. unfold spec.price. destruct (quad_smile_defined K) as [vol ->]. cbn [bind].
eexists. apply bs_facts.option_price_PUT; [assumption | assumption | reflexivity].
Qed.

Lemma spec_row_defined fwd K :
0 < fwd -> 0 < K -> exists r, spec.row T quad_smile fwd K = Ok r.
Proof.
intros Hf HK. unfold spec.row.
assert (He : 0 < spec.eps quad_smile < 1).
{ unfold spec.eps. cbn [get_strike_ref IV_Quad_F_IVCalc].
  unfold IV_Quad_F_get_strike_ref, quad_smile. cbn [implied_vol.KRef]. lra. }
set (e := spec.eps quad_smile) in *.
assert (Hup : 0 < K * (1 + e)) by (apply Rmult_lt_0_compat; lra).
assert (Hdn : 0 < K * (1 - e)) by (apply Rmult_lt_0_compat; lra).
assert (HKe : 0 < K * e) by (apply Rmult_lt_0_compat; lra).
destruct (quad_smile_defined K) as [vol ->]. cbn [bind].
destruct (spec_price_defined fwd _ Hf Hup) as [pu ->]. cbn [bind].
destruct (spec_price_defined fwd _ Hf HK) as [p ->]. cbn [bind].
destruct (spec_price_defined fwd _ Hf Hdn) as [pd ->]. cbn [bind].
rewrite rdiv_Ok by lra. cbn [bind].
rewrite rdiv_Ok.
- cbn [bind]. eexists. reflexivity.
- replace ((K * (1 + e) - K) * (K - K * (1 - e))) with ((K * e) * (K * e)) by ring.
  apply Rgt_not_eq, Rlt_gt, Rmult_lt_0_compat; assumption.
Qed.

Lemma implied_distribution_defined strikes spot PV :
0 < spot -> 0 < PV -> (forall K, In K strikes -> 0 < K) ->
exists out, implied_distribution strikes T spot PV quad_smile = Ok out.
Proof.
intros Hs HP Hall.
rewrite implied_distribution_unfold. rewrite rdiv_Ok by lra. cbn [bind].
destruct (mapM_defined (spec.row T quad_smile (spot / PV)) strikes) as [rows Hrows].
{ intros K HK. apply spec_row_defined; [now apply Rdiv_lt_0_compat | now apply Hall]. }
exists (spec.columns rows). apply body_equiv. rewrite Hrows. reflexivity.
Qed.
End Defined.

End dist_facts.


(** * The bisection loop *)

Module bisect_facts.
Import black_scholes.




(** Every iterate stays between the current left end and the current right
    end. *)
Lemma bisect_loop_range (f : R -> res R) (n : nat) :
  forall xa fa dm v,
    0 <= dm -> bisect_loop f n xa fa dm = Ok v -> xa <= v <= xa + dm.
Proof.
  induction n as [|n IH]; intros xa fa dm v Hdm Hrun; cbn [bisect_loop] in Hrun.
  - discriminate.
  - destruct (f (xa + dm * 0.5)) as [fm| |]; cbn [bind] in Hrun; try discriminate.
    destruct (Req_dec_T fm 0); [inversion Hrun; subst; lra|].
    destruct (Rlt_dec _ _); [inversion Hrun; subst; lra|].
    apply IH in Hrun; [|lra].
    destruct (Rle_dec 0 (fm * fa)); lra.
Qed.

Lemma bisect_range (f : R -> res R) a b v :
  a <= b -> bisect f a b = Ok v -> a <= v <= b.
Proof.
  intros Hab Hrun. unfold bisect in Hrun.
  destruct (f a) as [fa| |]; cbn [bind] in Hrun; try discriminate.
  destruct (f b) as [fb| |]; cbn [bind] in Hrun; try discriminate.
  destruct (Req_dec_T fa 0); [inversion Hrun; subst; lra|].
  destruct (Req_dec_T fb 0); [inversion Hrun; subst; lra|].
  destruct (Rlt_dec 0 (fa * fb)); [discriminate|].
  apply bisect_loop_range in Hrun; lra.
Qed.



End bisect_facts.

(** * The price as a function of the volatility *)

Module vol_inversion.
Import black_scholes bs_facts.





Section Inversion.
Variables fwd pv strike texp : R.
Variable pt : string.
Hypothesis fwd_pos : 0 < fwd.
Hypothesis strike_pos : 0 < strike.
Hypothesis pv_pos : 0 < pv.
Hypothesis vanilla : upper pt = CALL \/ upper pt = PUT \/ upper pt = STRADDLE.




End Inversion.


End vol_inversion.

(** * Sensitivity of the price to forward and strike *)

Module greeks_facts.

Lemma derivable_pt_lim_ln_ratio_fwd fwd strike :
  0 < fwd -> 0 < strike ->
  derivable_pt_lim (fun x => ln (x / strike)) fwd (/ fwd).
Proof.
  intros Hf Hk.
  replace (/ fwd) with (/ (fwd / strike) * (1 * / strike)) by (field; lra).
  apply (derivable_pt_lim_comp (fun x => x / strike) ln).
  - apply (derivable_pt_lim_scal_right id), derivable_pt_lim_id.
  - apply derivable_pt_lim_ln. now apply Rdiv_lt_0_compat.
Qed.


Section Sensitivities.
Variables s pv : R.
Hypothesis s_pos : 0 < s.

Lemma derivable_pt_lim_d1_fwd fwd strike :
  0 < fwd -> 0 < strike ->
  derivable_pt_lim (fun x => bs_d1 x strike s) fwd (/ fwd / s).
Proof.
  intros Hf Hk. unfold bs_d1.
  replace (/ fwd / s) with ((/ fwd + 0) * / s) by (field; lra).
  apply (derivable_pt_lim_scal_right (fun x => ln (x / strike) + 0.5 * s ^ 2)).
  apply (derivable_pt_lim_plus (fun x => ln (x / strike)) (fct_cte (0.5 * s ^ 2)));
    [now apply derivable_pt_lim_ln_ratio_fwd | apply derivable_pt_lim_const].
Qed.


Lemma derivable_pt_lim_d2_fwd fwd strike :
  0 < fwd -> 0 < strike ->
  derivable_pt_lim (fun x => bs_d2 x strike s) fwd (/ fwd / s).
Proof.
  intros Hf Hk. unfold bs_d2.
  replace (/ fwd / s) with (/ fwd / s - 0) by ring.
  apply (derivable_pt_lim_minus (fun x => bs_d1 x strike s) (fct_cte s));
    [now apply derivable_pt_lim_d1_fwd | apply derivable_pt_lim_const].
Qed.


(** The derivative of the call in the forward is pv N(d1). *)
Lemma derivable_pt_lim_bs_call_fwd fwd strike :
  0 < fwd -> 0 < strike ->
  derivable_pt_lim (fun x => bs_call x s pv strike) fwd
                   (pv * norm_cdf (bs_d1 fwd strike s)).
Proof.
  intros Hf Hk. pose proof gauss_half_pos as Hh.
  pose proof (bs_gauss_balance fwd strike Hf Hk s s_pos) as Hb.
  unfold bs_call.
  set (G1 := gauss (bs_d1 fwd strike s)) in *.
  set (G2 := gauss (bs_d2 fwd strike s)) in *.
  replace (pv * norm_cdf (bs_d1 fwd strike s))
    with (pv * ((1 * norm_cdf (bs_d1 fwd strike s)
                 + fwd * (G1 / (2 * gauss_half) * (/ fwd / s)))
                - strike * (G2 / (2 * gauss_half) * (/ fwd / s)))).
  2:{ replace (fwd * (G1 / (2 * gauss_half) * (/ fwd / s)))
        with (fwd * G1 * (/ fwd / s / (2 * gauss_half))) by (field; lra).
      rewrite Hb. field. lra. }
  apply (derivable_pt_lim_scal
           (fun x => x * norm_cdf (bs_d1 x strike s) - strike * norm_cdf (bs_d2 x strike s))).
  apply (derivable_pt_lim_minus (fun x => x * norm_cdf (bs_d1 x strike s))
                                (fun x => strike * norm_cdf (bs_d2 x strike s))).
  - apply (derivable_pt_lim_mult id (fun x => norm_cdf (bs_d1 x strike s)));
      [apply derivable_pt_lim_id|].
    apply (derivable_pt_lim_comp (fun x => bs_d1 x strike s) norm_cdf);
      [now apply derivable_pt_lim_d1_fwd | apply derivable_pt_lim_norm_cdf].
  - apply (derivable_pt_lim_scal (fun x => norm_cdf (bs_d2 x strike s))).
    apply (derivable_pt_lim_comp (fun x => bs_d2 x strike s) norm_cdf);
      [now apply derivable_pt_lim_d2_fwd | apply derivable_pt_lim_norm_cdf].
Qed.


Lemma derivable_pt_lim_bs_put_fwd fwd strike :
  0 < fwd -> 0 < strike ->
  derivable_pt_lim (fun x => bs_put x s pv strike) fwd
                   (pv * (norm_cdf (bs_d1 fwd strike s) - 1)).
Proof.
  intros Hf Hk. unfold bs_put.
  replace (pv * (norm_cdf (bs_d1 fwd strike s) - 1))
    with (pv * norm_cdf (bs_d1 fwd strike s) - pv * (1 - 0)) by ring.
  apply (derivable_pt_lim_minus (fun x => bs_call x s pv strike)
                                (fun x => pv * (x - strike)));
    [now apply derivable_pt_lim_bs_call_fwd|].
  apply (derivable_pt_lim_scal (fun x => x - strike)).
  apply (derivable_pt_lim_minus id (fct_cte strike));
    [apply derivable_pt_lim_id | apply derivable_pt_lim_const].
Qed.


End Sensitivities.

End greeks_facts.

(** * Symmetries of the formula *)

Module symmetry_facts.








End symmetry_facts.

(** * More on the hyperbolic tangent *)

Module tanh_facts.








End tanh_facts.

Module claims.
Import black_scholes bs_facts implied_vol.







(** C3 (as amended). For positive reference strike, discount factor and
    cutoff, both moneyness transforms vanish at the reference forward
    K = KRef / PV, so a smile built on either returns a there; at K = KRef
    they return PV - 1 and w tanh((PV - 1) / w), which is 0, with the smile
    returning a, when PV = 1. *)
Theorem moneyness_zero_at_reference_forward (KRef PV w a b c T : R) :
  0 < KRef -> 0 < PV -> 0 < w ->
  let quad := build_quad_prop_moneyness PV in
  let th := build_tanh_prop_moneyness w PV in
  quad (KRef / PV) KRef = Ok 0 /\
  th (KRef / PV) KRef = Ok 0 /\
  implied_vol (mk_IV_Quad_F KRef a b c quad) (KRef / PV) T = Ok a /\
  implied_vol (mk_IV_Quad_F KRef a b c th) (KRef / PV) T = Ok a /\
  quad KRef KRef = Ok (PV - 1) /\
  th KRef KRef = Ok (w * tanh ((PV - 1) / w)) /\
  (PV = 1 ->
   quad KRef KRef = Ok 0 /\
   th KRef KRef = Ok 0 /\
   implied_vol (mk_IV_Quad_F KRef a b c quad) KRef T = Ok a /\
   implied_vol (mk_IV_Quad_F KRef a b c th) KRef T = Ok a).
Proof.
  intros HK HP Hw quad th.
  pose proof (iv_facts.fwd_ref_pos KRef PV HK HP) as Hr.
  pose proof (iv_facts.quad_moneyness_at_forward KRef PV HK HP) as Hq0.
  pose proof (iv_facts.tanh_moneyness_at_forward KRef PV HK HP w Hw) as Ht0.
  fold quad in Hq0. fold th in Ht0.
  assert (Hsq : forall K, quad K KRef = Ok 0 ->
                          implied_vol (mk_IV_Quad_F KRef a b c quad) K T = Ok a).
  { intros K HK0. now apply (iv_facts.smile_at_zero_moneyness (mk_IV_Quad_F KRef a b c quad)). }
  assert (Hst : forall K, th K KRef = Ok 0 ->
                          implied_vol (mk_IV_Quad_F KRef a b c th) K T = Ok a).
  { intros K HK0. now apply (iv_facts.smile_at_zero_moneyness (mk_IV_Quad_F KRef a b c th)). }
  assert (Hq1 : quad KRef KRef = Ok (PV - 1)).
  { unfold quad. rewrite iv_facts.quad_moneyness_run by assumption. f_equal. field. lra. }
  assert (Ht1 : th KRef KRef = Ok (w * tanh ((PV - 1) / w))).
  { unfold th. rewrite iv_facts.tanh_moneyness_run by assumption. do 3 f_equal. field. lra. }
  split; [exact Hq0 | split; [exact Ht0 | split; [now apply Hsq | split; [now apply Hst|]]]].
  split; [exact Hq1 | split; [exact Ht1|]].
  intros HPV.
  assert (Hq2 : quad KRef KRef = Ok 0) by (rewrite Hq1, HPV; f_equal; ring).
  assert (Ht2 : th KRef KRef = Ok 0).
  { rewrite Ht1, HPV. f_equal. replace ((1 - 1) / w) with 0 by (field; lra).
    rewrite tanh_0. ring. }
  split; [exact Hq2 | split; [exact Ht2 | split; [now apply Hsq | now apply Hst]]].
Qed.

Lemma moneyness_zero_at_reference_forward_witness :
  let quad := build_quad_prop_moneyness 0.5 in
  let th := build_tanh_prop_moneyness 2 0.5 in
  quad (100 / 0.5) 100 = Ok 0 /\
  th (100 / 0.5) 100 = Ok 0 /\
  implied_vol (mk_IV_Quad_F 100 0.2 1 3 quad) (100 / 0.5) 1 = Ok 0.2 /\
  implied_vol (mk_IV_Quad_F 100 0.2 1 3 th) (100 / 0.5) 1 = Ok 0.2 /\
  quad 100 100 = Ok (0.5 - 1) /\
  th 100 100 = Ok (2 * tanh ((0.5 - 1) / 2)) /\
  (0.5 = 1 ->
   quad 100 100 = Ok 0 /\
   th 100 100 = Ok 0 /\
   implied_vol (mk_IV_Quad_F 100 0.2 1 3 quad) 100 1 = Ok 0.2 /\
   implied_vol (mk_IV_Quad_F 100 0.2 1 3 th) 100 1 = Ok 0.2).
Proof.
  apply (moneyness_zero_at_reference_forward 100 0.5 2 0.2 1 3 1); lra.
Defined.

(** C3 as stated fails: with PV = 0.5 and KRef = 100 the quadratic transform
    gives -0.5 at K = KRef, and a smile with a = 0.2, b = 1, c = 0 returns
    -0.3 there. *)
Lemma moneyness_at_KRef_counterexample :
  0 < 100 /\ 0 < 0.5 /\
  build_quad_prop_moneyness 0.5 100 100 = Ok (- 0.5) /\
  build_quad_prop_moneyness 0.5 100 100 <> Ok 0 /\
  implied_vol (mk_IV_Quad_F 100 0.2 1 0 (build_quad_prop_moneyness 0.5)) 100 1 = Ok (- 0.3) /\
  implied_vol (mk_IV_Quad_F 100 0.2 1 0 (build_quad_prop_moneyness 0.5)) 100 1 <> Ok 0.2.
Proof.
  assert (Hm : build_quad_prop_moneyness 0.5 100 100 = Ok (- 0.5)).
  { rewrite iv_facts.quad_moneyness_run by lra. f_equal. lra. }
  assert (Hv : implied_vol (mk_IV_Quad_F 100 0.2 1 0 (build_quad_prop_moneyness 0.5)) 100 1
               = Ok (- 0.3)).
  { cbn [implied_vol IV_Quad_F_IVCalc]; unfold IV_Quad_F_implied_vol;
    cbn [implied_vol.f implied_vol.KRef implied_vol.a implied_vol.b implied_vol.c].
    rewrite Hm. cbn [bind]. f_equal. lra. }
  split; [lra | split; [lra | split; [exact Hm | split; [|split; [exact Hv|]]]]].
  - rewrite Hm. intros H. inversion H. lra.
  - rewrite Hv. intros H. inversion H. lra.
Qed.









(** C6. [implied_distribution] returns exactly what the strike-by-strike
    recipe returns: step 1e-4 times the reference strike, strikes bumped to
    K (1 + eps) and K (1 - eps), every strike priced as a PUT with discount
    factor 1 and forward spot / PV, central differences for dist and dens,
    next to the unbumped vols and prices; PV enters only through the
    forward. *)
Theorem implied_distribution_refines_spec
  {C : Type} `{IVCalc C} (strikes : list R) (T spot PV : R) (calc : C) :
  (forall out,
      implied_distribution strikes T spot PV calc = Ok out
      <-> distribution_spec.implied_distribution_spec T calc strikes spot PV = Ok out) /\
  (forall spot' PV',
      PV <> 0 -> PV' <> 0 -> spot / PV = spot' / PV' ->
      implied_distribution strikes T spot PV calc
      = implied_distribution strikes T spot' PV' calc).
Proof.
  split.
  - intros out. rewrite dist_facts.implied_distribution_unfold.
    unfold distribution_spec.implied_distribution_spec.
    destruct (rdiv spot PV) as [fwd| |]; cbn [bind];
      [|split; discriminate|split; discriminate].
    apply dist_facts.body_equiv.
  - intros spot' PV' HP HP' Hfwd.
    rewrite !dist_facts.implied_distribution_unfold.
    rewrite (rdiv_Ok spot PV HP), (rdiv_Ok spot' PV' HP'), Hfwd. reflexivity.
Qed.

Lemma implied_distribution_refines_spec_witness :
  exists out,
    implied_distribution [90; 100; 110] 1 100 0.95 (dist_facts.quad_smile 100 0.2 (-0.1) 0.5 0.95)
    = Ok out /\
    distribution_spec.implied_distribution_spec
      1 (dist_facts.quad_smile 100 0.2 (-0.1) 0.5 0.95) [90; 100; 110] 100 0.95 = Ok out.
Proof.
  destruct (dist_facts.implied_distribution_defined
              100 0.2 (-0.1) 0.5 0.95 1 ltac:(lra) ltac:(lra) ltac:(lra)
              [90; 100; 110] 100 0.95 ltac:(lra) ltac:(lra)) as [out Hout].
  { intros K [<-|[<-|[<-|[]]]]; lra. }
  exists out. split; [exact Hout|].
  apply (implied_distribution_refines_spec [90; 100; 110] 1 100 0.95
           (dist_facts.quad_smile 100 0.2 (-0.1) 0.5 0.95)).
  exact Hout.
Defined.

(** C9. For positive forward and strike, [option_price] and [option_risk]
    use max(vol, 1e-10) and max(texp, 1e-10) in place of vol and texp, and
    with an accepted payoff type they return a value whatever vol and texp
    are: no division by zero, no logarithm of a non-positive number, no
    exception.  For [option_risk] the forward is the one it derives,
    spot / exp(- rate * texp). *)
Theorem clamping_is_silent_and_total (fwd vol pv strike texp : R) (pt : string) :
  0 < fwd -> 0 < strike ->
  min_val = 1e-10 /\
  option_price fwd vol pv strike texp pt
  = option_price fwd (Rmax vol min_val) pv strike (Rmax texp min_val) pt /\
  (str_in (upper pt) [FWD; CALL; PUT; STRADDLE] = true ->
   exists p, option_price fwd vol pv strike texp pt = Ok p) /\
  (forall spot rate,
      0 < risk_facts.risk_fwd spot rate texp ->
      option_risk spot vol rate strike texp pt
      = option_risk spot (Rmax vol min_val) rate strike (Rmax texp min_val) pt /\
      (str_in (upper pt) [CALL; PUT] = true ->
       exists r, option_risk spot vol rate strike texp pt = Ok r)).
Proof.
  intros Hf Hk. split; [unfold min_val; lra | split; [|split]].
  - unfold option_price. rewrite !clamp_idem. reflexivity.
  - intros Hpt. destruct (accepted_pricing pt Hpt) as [E|[E|[E|E]]].
    + eexists. now apply option_price_FWD.
    + eexists. now apply option_price_CALL.
    + eexists. now apply option_price_PUT.
    + eexists. now apply option_price_STRADDLE.
  - intros spot rate Hfwd. split.
    + unfold option_risk. rewrite !clamp_idem. reflexivity.
    + intros Hpt. eexists. apply risk_facts.option_risk_run.
      * apply (risk_facts.risk_fwd_pos_iff spot rate texp). exact Hfwd.
      * exact Hk.
      * now apply accepted_vanilla.
Qed.

Lemma clamping_is_silent_and_total_witness :
  min_val = 1e-10 /\
  option_price 100 (-1) 1 100 0 "put"
  = option_price 100 (Rmax (-1) min_val) 1 100 (Rmax 0 min_val) "put" /\
  (str_in (upper "put") [FWD; CALL; PUT; STRADDLE] = true ->
   exists p, option_price 100 (-1) 1 100 0 "put" = Ok p) /\
  (forall spot rate,
      0 < risk_facts.risk_fwd spot rate 0 ->
      option_risk spot (-1) rate 100 0 "put"
      = option_risk spot (Rmax (-1) min_val) rate 100 (Rmax 0 min_val) "put" /\
      (str_in (upper "put") [CALL; PUT] = true ->
       exists r, option_risk spot (-1) rate 100 0 "put" = Ok r)).
Proof.
  apply (clamping_is_silent_and_total 100 (-1) 1 100 0 "put"); lra.
Defined.

(** C10. For positive spot and strike the CALL and PUT risk bundles have the
    same Gamma and the same Vega, and the put Delta is the call Delta
    minus 1. *)
Theorem risk_call_put_relation (spot vol rate strike texp : R) :
  0 < spot -> 0 < strike ->
  exists rc rp,
    option_risk spot vol rate strike texp CALL = Ok rc /\
    option_risk spot vol rate strike texp PUT = Ok rp /\
    Gamma rp = Gamma rc /\
    Vega rp = Vega rc /\
    Delta rp = Delta rc - 1.
Proof.
  intros Hs Hk.
  exists (risk_facts.risk_call spot vol rate strike texp),
    (risk_facts.risk_put spot vol rate strike texp).
  split; [|split; [|split; [|split]]].
  - rewrite (risk_facts.option_risk_run spot vol rate strike texp CALL Hs Hk);
      [reflexivity | left; reflexivity].
  - rewrite (risk_facts.option_risk_run spot vol rate strike texp PUT Hs Hk);
      [reflexivity | right; reflexivity].
  - reflexivity.
  - reflexivity.
  - cbn [Delta risk_facts.risk_call risk_facts.risk_put]. rewrite dec_1. reflexivity.
Qed.

Lemma risk_call_put_relation_witness :
  exists rc rp,
    option_risk 100 0.2 0.05 100 1 CALL = Ok rc /\
    option_risk 100 0.2 0.05 100 1 PUT = Ok rp /\
    Gamma rp = Gamma rc /\
    Vega rp = Vega rc /\
    Delta rp = Delta rc - 1.
Proof.
  apply (risk_call_put_relation 100 0.2 0.05 100 1); lra.
Defined.

End claims.

Module extras_vol.
Import black_scholes bs_facts vol_inversion.



(** X2. Whatever the inputs, a volatility returned by [option_vol] lies in
    the bracket it was asked to search, when that bracket is well ordered. *)
Theorem option_vol_within_bracket
  (price fwd pv strike texp : R) (pt : string) (min_vol max_vol v : R) :
  min_vol <= max_vol ->
  option_vol price fwd pv strike texp pt min_vol max_vol = Num v ->
  min_vol <= v <= max_vol.
Proof.
  intros Hb Hrun. unfold option_vol in Hrun.
  destruct (bisect _ min_vol max_vol) as [x| |] eqn:Hbis; try discriminate.
  inversion Hrun; subst x. now apply (bisect_facts.bisect_range _ _ _ _ Hb Hbis).
Qed.

Lemma option_vol_within_bracket_witness : 0 <= 0 <= 20.
Proof.
  apply (option_vol_within_bracket 0 100 0 100 1 "CALL" 0 20 0); [lra|].
  unfold option_vol.
  rewrite (vol_facts.bisect_root_left _ 0 20 (bs_call 100 (sqrtvar 20 1) 0 100 - 0)).
  - reflexivity.
  - rewrite (option_price_CALL 100 0 0 100 1 "CALL") by (lra || reflexivity).
    cbn [bind]. f_equal. unfold bs_call. ring.
  - rewrite (option_price_CALL 100 20 0 100 1 "CALL") by (lra || reflexivity).
    reflexivity.
Defined.







End extras_vol.

Module extras_price.
Import black_scholes bs_facts vol_inversion.













End extras_price.

Module extras_risk.
Import black_scholes bs_facts risk_facts.

(** The price entry of a returned bundle, read as a number. *)
Definition risk_price (o : res risk) : R :=
  match o with
  | Ok r => Price r
  | _ => 0
  end.




(** X12. For positive spot and strike and a CALL or PUT, the Delta returned
    by [option_risk] is the derivative of the returned Price with respect to
    the spot. *)
Theorem option_risk_delta_is_spot_derivative
  (spot vol rate strike texp : R) (pt : string) :
  0 < spot -> 0 < strike ->
  upper pt = CALL \/ upper pt = PUT ->
  exists r,
    option_risk spot vol rate strike texp pt = Ok r /\
    derivable_pt_lim (fun x => risk_price (option_risk x vol rate strike texp pt))
                     spot (Delta r).
Proof.
  intros Hs Hk Hpt.
  pose proof (risk_pv_pos rate texp) as Hpv. set (pv := risk_pv rate texp) in *.
  pose proof (sqrtvar_pos vol texp) as Hsv. set (s := sqrtvar vol texp) in *.
  assert (Hf : 0 < spot / pv) by (now apply Rdiv_lt_0_compat).
  assert (Hin : derivable_pt_lim (fun x => x / pv) spot (1 * / pv))
    by (apply (derivable_pt_lim_scal_right id), derivable_pt_lim_id).
  assert (Hcall : derivable_pt_lim (fun x => bs_call (x / pv) s pv strike) spot
                                   (norm_cdf (bs_d1 (spot / pv) strike s))).
  { replace (norm_cdf (bs_d1 (spot / pv) strike s))
      with (pv * norm_cdf (bs_d1 (spot / pv) strike s) * (1 * / pv)) by (field; lra).
    apply (derivable_pt_lim_comp (fun x => x / pv) (fun x => bs_call x s pv strike));
      [exact Hin | now apply greeks_facts.derivable_pt_lim_bs_call_fwd]. }
  assert (Hput : derivable_pt_lim (fun x => bs_put (x / pv) s pv strike) spot
                                  (norm_cdf (bs_d1 (spot / pv) strike s) - 1)).
  { replace (norm_cdf (bs_d1 (spot / pv) strike s) - 1)
      with (pv * (norm_cdf (bs_d1 (spot / pv) strike s) - 1) * (1 * / pv)) by (field; lra).
    apply (derivable_pt_lim_comp (fun x => x / pv) (fun x => bs_put x s pv strike));
      [exact Hin | now apply greeks_facts.derivable_pt_lim_bs_put_fwd]. }
  rewrite (option_risk_run spot vol rate strike texp pt Hs Hk Hpt).
  eexists. split; [reflexivity|].
  destruct Hpt as [Hpt|Hpt].
  - apply (derivable_pt_lim_locally_ext (fun x => bs_call (x / pv) s pv strike) _
             spot (spot / 2) (2 * spot)); [lra | |].
    + intros z Hz.
      rewrite (option_risk_run z vol rate strike texp pt ltac:(lra) Hk (or_introl Hpt)).
      rewrite Hpt. reflexivity.
    + rewrite Hpt. change (String.eqb CALL CALL) with true. cbv iota. exact Hcall.
  - apply (derivable_pt_lim_locally_ext (fun x => bs_put (x / pv) s pv strike) _
             spot (spot / 2) (2 * spot)); [lra | |].
    + intros z Hz.
      rewrite (option_risk_run z vol rate strike texp pt ltac:(lra) Hk (or_intror Hpt)).
      rewrite Hpt. reflexivity.
    + rewrite Hpt. change (String.eqb PUT CALL) with false. cbv iota.
      cbn [Delta risk_put]. rewrite dec_1. exact Hput.
Qed.

Lemma option_risk_delta_is_spot_derivative_witness :
  exists r,
    option_risk 100 0.2 0.05 110 1 "call" = Ok r /\
    derivable_pt_lim (fun x => risk_price (option_risk x 0.2 0.05 110 1 "call"))
                     100 (Delta r).
Proof.
  apply (option_risk_delta_is_spot_derivative 100 0.2 0.05 110 1 "call");
    [lra | lra | left; reflexivity].
Defined.

End extras_risk.

Module extras_interval.
Import black_scholes bs_facts.
Module nd := black_scholes_nd.

(** X13. For a CALL or PUT, [option_intrinsic_value] returns a value that is
    never negative; the call value minus the put value is spot - strike, and
    at most one of the two is non-zero. *)
Theorem intrinsic_value_parity (spot strike : R) :
  exists c p,
    option_intrinsic_value spot strike CALL = Ok c /\
    option_intrinsic_value spot strike PUT = Ok p /\
    0 <= c /\ 0 <= p /\ c - p = spot - strike /\ c * p = 0.
Proof.
  exists (Rmax (spot - strike) 0), (Rmax (strike - spot) 0).
  split; [unfold option_intrinsic_value; rewrite dec_0; reflexivity|].
  split; [unfold option_intrinsic_value; rewrite dec_0; reflexivity|].
  unfold Rmax. destruct (Rle_dec (spot - strike) 0); destruct (Rle_dec (strike - spot) 0);
    repeat split; try lra; nra.
Qed.



Lemma map_repeat_const {A : Type} (v : R) (l : list A) :
  map (fun _ => v) l = repeat v (length l).
Proof. induction l as [|x xs IH]; [reflexivity | cbn; now rewrite IH]. Qed.

Lemma zipWith_map {A : Type} (f g : A -> R) (h : R -> R -> R) (l : list A) :
  zipWith h (map f l) (map g l) = map (fun x => h (f x) (g x)) l.
Proof. induction l as [|x xs IH]; [reflexivity | cbn; now rewrite IH]. Qed.

(** The bounds the scalar function returns, as a pair. *)
Definition bounds (fwd pv strike : R) (call : bool) : R * R :=
  if call then (Rmax (pv * fwd - pv * strike) 0, pv * fwd)
  else (Rmax (pv * strike - pv * fwd) 0, pv * strike).

Lemma bounds_scalar fwd pv strike pt :
  upper pt = CALL \/ upper pt = PUT ->
  option_price_interval fwd pv strike pt
  = Ok (bounds fwd pv strike (String.eqb (upper pt) CALL)).
Proof.
  intros [Hpt|Hpt]; rewrite Hpt.
  - now apply option_price_interval_CALL.
  - now apply option_price_interval_PUT.
Qed.

(** X15. Shape normalisation of [option_price_interval]: with one number and
    one sequence the two bounds are arrays as long as the sequence, and entry
    by entry they are the bounds of the scalar call; the same holds for two
    sequences of equal length, and two numbers give two numbers. *)
Theorem option_price_interval_broadcasts (pv : R) (pt : string) :
  upper pt = CALL \/ upper pt = PUT ->
  let call := String.eqb (upper pt) CALL in
  (forall fwd strike,
      nd.option_price_interval (nd.Scalar fwd) pv (nd.Scalar strike) pt
      = Ok (nd.Scalar (fst (bounds fwd pv strike call)),
            nd.Scalar (snd (bounds fwd pv strike call)))) /\
  (forall fwd strikes,
      nd.option_price_interval (nd.Scalar fwd) pv (nd.Array strikes) pt
      = Ok (nd.Array (map (fun K => fst (bounds fwd pv K call)) strikes),
            nd.Array (map (fun K => snd (bounds fwd pv K call)) strikes))) /\
  (forall fwds strike,
      nd.option_price_interval (nd.Array fwds) pv (nd.Scalar strike) pt
      = Ok (nd.Array (map (fun F => fst (bounds F pv strike call)) fwds),
            nd.Array (map (fun F => snd (bounds F pv strike call)) fwds))) /\
  (forall pairs,
      nd.option_price_interval (nd.Array (map fst pairs)) pv (nd.Array (map snd pairs)) pt
      = Ok (nd.Array (map (fun FK => fst (bounds (fst FK) pv (snd FK) call)) pairs),
            nd.Array (map (fun FK => snd (bounds (fst FK) pv (snd FK) call)) pairs))).
Proof.
  intros Hpt call. unfold call.
  destruct Hpt as [Hpt|Hpt]; rewrite Hpt;
    [change (String.eqb CALL CALL) with true | change (String.eqb PUT CALL) with false];
    (split; [|split; [|split]]); intros; unfold nd.option_price_interval; rewrite Hpt;
    [ change (negb (str_in CALL [CALL; PUT])) with false;
      change (String.eqb CALL CALL) with true ..
    | change (negb (str_in PUT [CALL; PUT])) with false;
      change (String.eqb PUT CALL) with false
    | change (negb (str_in PUT [CALL; PUT])) with false;
      change (String.eqb PUT CALL) with false
    | change (negb (str_in PUT [CALL; PUT])) with false;
      change (String.eqb PUT CALL) with false
    | change (negb (str_in PUT [CALL; PUT])) with false;
      change (String.eqb PUT CALL) with false ];
    unfold bounds; cbn -[Rmax Nat.eqb];
    rewrite ?length_map, ?Nat.eqb_refl; cbn [bind nd.nd_map];
    rewrite ?map_map, ?zipWith_map, ?map_map, ?map_repeat_const, ?dec_0;
    reflexivity.
Qed.

Lemma option_price_interval_broadcasts_witness :
  nd.option_price_interval (nd.Scalar 100) 0.9 (nd.Array [90; 100; 110]) "call"
  = Ok (nd.Array (map (fun K => fst (bounds 100 0.9 K true)) [90; 100; 110]),
        nd.Array (map (fun K => snd (bounds 100 0.9 K true)) [90; 100; 110])).
Proof.
  destruct (option_price_interval_broadcasts 0.9 "call" (or_introl eq_refl)) as [_ [H _]].
  apply (H 100 [90; 100; 110]).
Defined.

(** X16. Where the shapes are not normalised: with two sequences of
    different lengths, the forward one of length one, a CALL gets a lower
    bound as long as the strikes and an upper bound of length one; and two
    sequences of different lengths, neither of length one, raise. *)
Theorem option_price_interval_unequal_lengths (pv f : R) (strikes fwds : list R) :
  (length strikes <> 1)%nat ->
  (length fwds <> 1)%nat -> (length fwds <> length strikes)%nat ->
  nd.option_price_interval (nd.Array [f]) pv (nd.Array strikes) CALL
  = Ok (nd.Array (map (fun K => Rmax (pv * f - pv * K) 0) strikes), nd.Array [pv * f]) /\
  exists msg,
    nd.option_price_interval (nd.Array fwds) pv (nd.Array strikes) CALL
    = Raise (ValueError msg).
Proof.
  intros Hs Hf Hfs. split.
  - unfold nd.option_price_interval.
    change (upper CALL) with CALL.
    change (negb (str_in CALL [CALL; PUT])) with false.
    change (String.eqb CALL CALL) with true. cbn -[Rmax Nat.eqb].
    rewrite length_map.
    destruct (Nat.eqb_spec 1 (length strikes)) as [E|_]; [congruence|].
    cbn [Nat.eqb bind nd.nd_map]. rewrite ?map_map, ?dec_0. reflexivity.
  - unfold nd.option_price_interval.
    change (upper CALL) with CALL.
    change (negb (str_in CALL [CALL; PUT])) with false.
    change (String.eqb CALL CALL) with true. cbn -[Rmax Nat.eqb].
    rewrite !length_map.
    destruct (Nat.eqb_spec (length fwds) (length strikes)) as [E|_]; [congruence|].
    destruct (Nat.eqb_spec (length fwds) 1) as [E|_]; [congruence|].
    destruct (Nat.eqb_spec (length strikes) 1) as [E|_]; [congruence|].
    eexists. reflexivity.
Qed.

Lemma option_price_interval_unequal_lengths_witness :
  nd.option_price_interval (nd.Array [100]) 0.9 (nd.Array [90; 110]) CALL
  = Ok (nd.Array (map (fun K => Rmax (0.9 * 100 - 0.9 * K) 0) [90; 110]),
        nd.Array [0.9 * 100]) /\
  exists msg,
    nd.option_price_interval (nd.Array [100; 101; 102]) 0.9 (nd.Array [90; 110]) CALL
    = Raise (ValueError msg).
Proof.
  apply (option_price_interval_unequal_lengths 0.9 100 [90; 110] [100; 101; 102]);
    cbn; lia.
Defined.

End extras_interval.

Module extras_smile.
Import implied_vol.







End extras_smile.

Module extras_distribution.
Import black_scholes bs_facts implied_vol dist_facts.





Section FlatSmile.
Variables (KRef a PVm T fwd : R).
Hypothesis KRef_pos : 0 < KRef.
Hypothesis KRef_small : KRef < 10000.
Hypothesis PVm_pos : 0 < PVm.
Hypothesis fwd_pos : 0 < fwd.




End FlatSmile.



End extras_distribution.
